(** * catmapper: [category_mapping] and its threshold lookup

    A shallow embedding of [category_mapping] (src/__init__.py) together with
    the Python built-ins it calls ([len], subscripting, [zip], [sorted],
    [bisect.bisect]), followed by the properties of the mapping.

    Python objects are dynamically typed, so the table and the iterable are
    both values of one type [value].  Exceptions are the error side of
    [result]; a [try ... except TypeError] is [try_except_TypeError]. *)

From Stdlib Require Import List String Ascii ZArith QArith Lia Bool Arith.
From Stdlib Require Import Permutation Sorted SetoidList SetoidPermutation.
Import ListNotations.

Set Warnings "-register-all".

Local Open Scope string_scope.
Local Open Scope Q_scope.
Local Open Scope nat_scope.
Local Open Scope list_scope.

(** ** Python values *)

(** Numbers ([int] and finite [float]) are modelled by their exact rational
    value: Python compares an [int] with a [float] exactly, so the order of
    numbers is the order of [Q].  Not-a-number is outside the model. *)
Inductive value : Type :=
| VNum (q : Q)
| VStr (s : string)
| VList (l : list value)
| VTuple (l : list value).

(** The exceptions that [category_mapping] can meet. *)
Inductive exn : Type :=
| TypeError
| IndexError
| ValueError.

Inductive result (A : Type) : Type :=
| Ok (a : A)
| Err (e : exn).

Arguments Ok {A} a.
Arguments Err {A} e.

Definition bind {A B : Type} (r : result A) (k : A -> result B) : result B :=
  match r with
  | Ok a => k a
  | Err e => Err e
  end.

Notation "x <- r ;; k" := (bind r (fun x => k))
  (at level 61, r at next level, right associativity).

(** [try: body except TypeError: handler]; every other exception of the body
    propagates. *)
Definition try_except_TypeError {A : Type} (body handler : result A) : result A :=
  match body with
  | Err TypeError => handler
  | r => r
  end.

Fixpoint mapM {A B : Type} (f : A -> result B) (l : list A) : result (list B) :=
  match l with
  | [] => Ok []
  | x :: l' => y <- f x ;; ys <- mapM f l' ;; Ok (y :: ys)
  end.

(** ** Built-ins *)

Definition Qltb (x y : Q) : bool :=
  match (x ?= y)%Q with
  | Lt => true
  | _ => false
  end.

Definition is_num (v : value) : bool :=
  match v with
  | VNum _ => true
  | _ => false
  end.

(** [a == b]: never raises; objects of different types are unequal. *)
Fixpoint value_eqb (a b : value) : bool :=
  let fix all_eqb (l m : list value) : bool :=
    match l, m with
    | [], [] => true
    | x :: l', y :: m' => value_eqb x y && all_eqb l' m'
    | _, _ => false
    end in
  match a, b with
  | VNum x, VNum y => Qeq_bool x y
  | VStr s, VStr t => String.eqb s t
  | VList l, VList m => all_eqb l m
  | VTuple l, VTuple m => all_eqb l m
  | _, _ => false
  end.

(** [a < b]: numbers by value, strings and sequences lexicographically (a
    sequence is decided at the first position where the items differ); two
    objects of different kinds raise [TypeError]. *)
Fixpoint value_lt (a b : value) : result bool :=
  let fix seq_lt (l m : list value) : result bool :=
    match l, m with
    | [], [] => Ok false
    | [], _ :: _ => Ok true
    | _ :: _, [] => Ok false
    | x :: l', y :: m' => if value_eqb x y then seq_lt l' m' else value_lt x y
    end in
  match a, b with
  | VNum x, VNum y => Ok (Qltb x y)
  | VStr s, VStr t => Ok (String.ltb s t)
  | VList l, VList m => seq_lt l m
  | VTuple l, VTuple m => seq_lt l m
  | _, _ => Err TypeError
  end.

(** The characters of a string, each one a string of length one. *)
Fixpoint chars (s : string) : list value :=
  match s with
  | EmptyString => []
  | String c s' => VStr (String c EmptyString) :: chars s'
  end.

(** [iter(v)]: the items a [for] loop, [zip] or [*v] draws from [v]. *)
Definition iter_value (v : value) : result (list value) :=
  match v with
  | VNum _ => Err TypeError
  | VStr s => Ok (chars s)
  | VList l => Ok l
  | VTuple l => Ok l
  end.

(** [len(v)]. *)
Definition len (v : value) : result nat :=
  match v with
  | VNum _ => Err TypeError
  | VStr s => Ok (String.length s)
  | VList l => Ok (List.length l)
  | VTuple l => Ok (List.length l)
  end.

(** Subscripting a sequence of items with a Python integer: a negative index
    counts from the end, an index outside the sequence raises [IndexError]. *)
Definition index_items (l : list value) (i : Z) : result value :=
  let n := Z.of_nat (List.length l) in
  let j := (if i <? 0 then i + n else i)%Z in
  if ((0 <=? j) && (j <? n))%Z
  then match nth_error l (Z.to_nat j) with
       | Some x => Ok x
       | None => Err IndexError
       end
  else Err IndexError.

(** [v[i]]. *)
Definition getitem (v : value) (i : Z) : result value :=
  match v with
  | VNum _ => Err TypeError
  | VStr s => index_items (chars s) i
  | VList l => index_items l i
  | VTuple l => index_items l i
  end.

(** [zip(r0, r1, ...)] on the items of its arguments: one tuple per position,
    up to the shortest argument; no argument gives no tuple. *)
Fixpoint zip_items (rows : list (list value)) : list (list value) :=
  match rows with
  | [] => []
  | r :: rs =>
      match rs with
      | [] => map (fun x => [x]) r
      | _ :: _ => map (fun p => fst p :: snd p) (combine r (zip_items rs))
      end
  end.

(** [[list(x) for x in zip( *cats )]]. *)
Definition transpose (cats : value) : result value :=
  rows <- iter_value cats ;;
  items <- mapM iter_value rows ;;
  Ok (VList (map VList (zip_items items))).

(** [sorted(cats, key=lambda x: x[-1])].  The keys are computed first, one
    per item and in order; the items are then ordered by [<] on their keys.
    The sort is stable.  It is modelled as an insertion sort: whenever the
    keys are all numbers it returns the one stable ascending order, and on
    two items it makes the single comparison [key(second) < key(first)], as
    the list sort of CPython does. *)
Fixpoint insert_by_key (kx : value * value) (l : list (value * value))
  : result (list (value * value)) :=
  match l with
  | [] => Ok [kx]
  | ky :: l' =>
      b <- value_lt (fst ky) (fst kx) ;;
      if b then (r <- insert_by_key kx l' ;; Ok (ky :: r)) else Ok (kx :: l)
  end.

Fixpoint sort_keyed (l : list (value * value)) : result (list (value * value)) :=
  match l with
  | [] => Ok []
  | kx :: l' => s <- sort_keyed l' ;; insert_by_key kx s
  end.

Definition sorted_by_last (cats : value) : result value :=
  xs <- iter_value cats ;;
  keyed <- mapM (fun x => k <- getitem x (-1) ;; Ok (k, x)) xs ;;
  s <- sort_keyed keyed ;;
  Ok (VList (map snd s)).

(** [bisect.bisect(a, x)], that is [bisect_right]:
<<
    lo, hi = 0, len(a)
    while lo < hi:
        mid = (lo + hi) // 2
        if x < a[mid]: hi = mid
        else: lo = mid + 1
    return lo
>>
    [hi - lo] decreases at every turn of the loop, so [length a] turns are
    enough ([bisect_loop_fuel] below); the loop is never cut short. *)
Fixpoint bisect_loop (fuel : nat) (a : list value) (x : value) (lo hi : nat)
  : result nat :=
  match fuel with
  | O => Ok lo
  | S fuel' =>
      if lo <? hi then
        let mid := (lo + hi) / 2 in
        b <- value_lt x (nth mid a (VNum 0)) ;;
        if b then bisect_loop fuel' a x lo mid
        else bisect_loop fuel' a x (mid + 1) hi
      else Ok lo
  end.

Definition bisect (a : list value) (x : value) : result nat :=
  bisect_loop (List.length a) a x 0 (List.length a).

(** [isiter(x, consider_non_iter=(str, bytes, bytearray))] of the package
    [isiter]: a predicate that answers without raising; strings and numbers
    are not iterable for it, lists and tuples are. *)
Definition isiter (x : value) : bool :=
  match x with
  | VList _ | VTuple _ => true
  | VNum _ | VStr _ => false
  end.

(** ** [category_mapping] *)

(** Line 64: [len(cats[0]) == 2 and isiter(cats, ...)]. *)
Definition shape_probe (cats : value) : result bool :=
  x <- getitem cats 0 ;;
  n <- len x ;;
  Ok (if n =? 2 then isiter cats else false).

(** Lines 63-66: the value of the probe is dropped. *)
Definition first_block (cats : value) : result value :=
  try_except_TypeError (_ <- shape_probe cats ;; Ok cats) (transpose cats).

(** Lines 68-72. *)
Definition sort_block (cats : value) : result value :=
  try_except_TypeError
    (sorted_by_last cats)
    (t <- transpose cats ;; sorted_by_last t).

(** Line 74: [cat0, cat1 = [list(x) for x in zip( *cats )]]. *)
Definition unpack_rows (cats : value) : result (list value * list value) :=
  t <- transpose cats ;;
  rows <- iter_value t ;;
  match rows with
  | [VList cat0; VList cat1] => Ok (cat0, cat1)
  | _ => Err ValueError
  end.

(** Line 76, one item: [(i, cat0[bisect(cat1, i[1])])]. *)
Definition categorize (cat0 cat1 : list value) (i : value)
  : result (value * value) :=
  v <- getitem i 1 ;;
  idx <- bisect cat1 v ;;
  lab <- index_items cat0 (Z.of_nat idx) ;;
  Ok (i, lab).

(** Lines 74-76. *)
Definition map_items (iterable cats : value) : result (list (value * value)) :=
  rows <- unpack_rows cats ;;
  items <- iter_value iterable ;;
  mapM (categorize (fst rows) (snd rows)) items.

Definition category_mapping (iterable cats : value)
  : result (list (value * value)) :=
  cats1 <- first_block cats ;;
  cats2 <- sort_block cats1 ;;
  map_items iterable cats2.

(** [category_mapping] without lines 63-66. *)
Definition category_mapping_sort_only (iterable cats : value)
  : result (list (value * value)) :=
  cats2 <- sort_block cats ;;
  map_items iterable cats2.

(** ** Category tables *)

(** A category: its label and its threshold. *)
Abbreviation category := (value * Q)%type (only parsing).

(** Shape A: [[labels, thresholds]]. *)
Definition shapeA (cs : list category) : value :=
  VList [VList (map fst cs); VList (map (fun c => VNum (snd c)) cs)].

(** Shape B: [[(label, threshold), ...]]. *)
Definition shapeB (cs : list category) : value :=
  VList (map (fun c => VTuple [fst c; VNum (snd c)]) cs).

(** Labels that are not numbers: comparing one with a threshold raises
    [TypeError]. *)
Definition labels_opaque (cs : list category) : Prop :=
  Forall (fun c => is_num (fst c) = false) cs.

(** The canonical row of a category, as a tuple or as a list. *)
Definition row (tuple : bool) (c : category) : value :=
  if tuple then VTuple [fst c; VNum (snd c)] else VList [fst c; VNum (snd c)].

(** The stable ascending order of the categories by threshold, on the
    categories themselves: what [sorted] computes on their rows
    ([sorted_by_last_rows] below). *)
Fixpoint insert_cat (c : category) (l : list category) : list category :=
  match l with
  | [] => [c]
  | d :: l' => if Qltb (snd d) (snd c) then d :: insert_cat c l' else c :: l
  end.

Fixpoint sort_cats (l : list category) : list category :=
  match l with
  | [] => []
  | c :: l' => insert_cat c (sort_cats l')
  end.

Definition cat_le (a b : category) : Prop := (snd a <= snd b)%Q.

Definition labels (cs : list category) : list value := map fst cs.

Definition thresholds (cs : list category) : list value :=
  map (fun c => VNum (snd c)) cs.

(** Line 76 on the two rows of a table already in threshold order. *)
Definition lookup_all (iterable : value) (sorted : list category)
  : result (list (value * value)) :=
  items <- iter_value iterable ;;
  mapM (categorize (labels sorted) (thresholds sorted)) items.

(** The category a number falls in: the first one, in threshold order, whose
    threshold is above the number. *)
Definition first_above (v : Q) (sorted : list category) : option category :=
  find (fun c => Qltb v (snd c)) sorted.

(** [lab] labels a category of [cs] whose threshold is the least of those
    that are at least [v] (the reading of the specification). *)
Definition smallest_ge (cs : list category) (v : Q) (lab : value) : Prop :=
  exists t, In (lab, t) cs /\ (v <= t)%Q /\
            forall l' t', In (l', t') cs -> (v <= t')%Q -> (t <= t')%Q.

(** [lab] labels a category of [cs] whose threshold is the least of those
    that are strictly above [v]. *)
Definition smallest_gt (cs : list category) (v : Q) (lab : value) : Prop :=
  exists t, In (lab, t) cs /\ (v < t)%Q /\
            forall l' t', In (l', t') cs -> (v < t')%Q -> (t <= t')%Q.

(** The threshold at position [j]. *)
Definition thr (s : list category) (j : nat) : Q := snd (nth j s (VNum 0, 0%Q)).

(** Pairwise different thresholds. *)
Definition distinct_thresholds (cs : list category) : Prop :=
  NoDupA Qeq (map snd cs).

(** [tbl] presents the categories [cs] in one of the two shapes. *)
Definition encodes (tbl : value) (cs : list category) : Prop :=
  tbl = shapeA cs \/ tbl = shapeB cs.

(** A table with at least one category, labels that are not numbers and
    numbers as thresholds. *)
Definition valid_table (tbl : value) (cs : list category) : Prop :=
  cs <> [] /\ labels_opaque cs /\ encodes tbl cs.

(** An element that carries the number [v] at position 1. *)
Definition has_price (i : value) (v : Q) : Prop := getitem i 1 = Ok (VNum v).

(** The docstring's element [(name, price)]. *)
Definition elem (name : string) (price : Q) : value :=
  VTuple [VStr name; VNum price].

(** Categories with numbers as labels. *)
Definition numeric_labels : list category :=
  [(VNum 10, 1); (VNum 20, 2)]%Q.

(** Two categories with one threshold, in both orders. *)
Definition tied : list category :=
  [(VStr "a", 1); (VStr "b", 1)]%Q.

Definition tied_swapped : list category :=
  [(VStr "b", 1); (VStr "a", 1)]%Q.

Definition beers : list category :=
  [(VStr "barato", 1.3); (VStr "mais ou menos", 2); (VStr "caro", 3.1)]%Q.

(** * Properties *)

(** ** Numbers *)

Lemma Qltb_true (x y : Q) : Qltb x y = true <-> (x < y)%Q.
Proof.
  unfold Qltb. rewrite Qlt_alt.
  destruct (x ?= y)%Q; split; congruence.
Qed.

Lemma Qltb_false (x y : Q) : Qltb x y = false <-> (y <= x)%Q.
Proof.
  split; intro H.
  - apply Qnot_lt_le. intro L. apply Qltb_true in L. congruence.
  - destruct (Qltb x y) eqn:E; [| reflexivity].
    apply Qltb_true in E. exfalso. exact (Qlt_not_le _ _ E H).
Qed.

(** ** The error monad *)

Lemma mapM_ok_map {A B : Type} (f : A -> result B) (g : A -> B) (l : list A) :
  (forall x, In x l -> f x = Ok (g x)) -> mapM f l = Ok (map g l).
Proof.
  induction l as [| x l IH]; intros H; simpl; [reflexivity |].
  rewrite (H x (or_introl eq_refl)). simpl.
  rewrite IH by (intros y Hy; apply H; right; exact Hy).
  reflexivity.
Qed.

Lemma mapM_map_ok {A B C : Type} (f : B -> result C) (g : A -> B) (h : A -> C)
    (l : list A) :
  (forall x, In x l -> f (g x) = Ok (h x)) -> mapM f (map g l) = Ok (map h l).
Proof.
  induction l as [| x l IH]; intros H; simpl; [reflexivity |].
  rewrite (H x (or_introl eq_refl)). simpl.
  rewrite IH by (intros y Hy; apply H; right; exact Hy).
  reflexivity.
Qed.

Lemma mapM_ok_Forall2 {A B : Type} (f : A -> result B) (l : list A) (out : list B) :
  mapM f l = Ok out <-> Forall2 (fun x y => f x = Ok y) l out.
Proof.
  revert out. induction l as [| x l IH]; intros out; simpl.
  - split; intro H.
    + injection H as <-. constructor.
    + inversion H. reflexivity.
  - split; intro H.
    + destruct (f x) as [y | e] eqn:Ex; simpl in H; [| discriminate].
      destruct (mapM f l) as [ys | e] eqn:El; simpl in H; [| discriminate].
      injection H as <-. constructor; [exact Ex |]. apply IH. reflexivity.
    + inversion H as [| x' y l' ys Hx Hl]; subst.
      rewrite Hx. simpl. apply IH in Hl. rewrite Hl. reflexivity.
Qed.

Lemma mapM_ext {A B : Type} (f g : A -> result B) (l : list A) :
  (forall x, In x l -> f x = g x) -> mapM f l = mapM g l.
Proof.
  induction l as [| x l IH]; intros H; simpl; [reflexivity |].
  rewrite (H x (or_introl eq_refl)).
  rewrite IH by (intros y Hy; apply H; right; exact Hy).
  reflexivity.
Qed.


(** ** The stable order of the categories *)

Lemma insert_cat_perm (c : category) (l : list category) :
  Permutation (c :: l) (insert_cat c l).
Proof.
  induction l as [| d l IH]; simpl; [reflexivity |].
  destruct (Qltb (snd d) (snd c)); [| reflexivity].
  rewrite perm_swap. apply perm_skip. exact IH.
Qed.

Lemma sort_cats_perm (l : list category) : Permutation l (sort_cats l).
Proof.
  induction l as [| c l IH]; simpl; [reflexivity |].
  rewrite <- insert_cat_perm. apply perm_skip. exact IH.
Qed.

Lemma sort_cats_in (l : list category) (c : category) :
  In c (sort_cats l) <-> In c l.
Proof.
  split; apply Permutation_in;
    [symmetry |]; apply sort_cats_perm.
Qed.

Lemma sort_cats_nonempty (l : list category) : l <> [] -> sort_cats l <> [].
Proof.
  intros H E. apply H. apply Permutation_nil.
  rewrite <- E. symmetry. apply sort_cats_perm.
Qed.

Lemma insert_cat_sorted (c : category) (l : list category) :
  StronglySorted cat_le l -> StronglySorted cat_le (insert_cat c l).
Proof.
  induction l as [| d l IH]; intros S; simpl.
  - constructor; constructor.
  - inversion S as [| ? ? Sl Fl]; subst.
    destruct (Qltb (snd d) (snd c)) eqn:E.
    + constructor; [apply IH; exact Sl |].
      apply Forall_forall. intros x Hx.
      apply (Permutation_in _ (Permutation_sym (insert_cat_perm c l))) in Hx.
      destruct Hx as [<- | Hx].
      * apply Qlt_le_weak. apply Qltb_true. exact E.
      * rewrite Forall_forall in Fl. apply Fl. exact Hx.
    + apply Qltb_false in E.
      constructor; [exact S |].
      constructor; [exact E |].
      apply Forall_forall. intros x Hx.
      rewrite Forall_forall in Fl.
      unfold cat_le. apply Qle_trans with (snd d); [exact E | apply Fl; exact Hx].
Qed.

Lemma sort_cats_sorted (l : list category) : StronglySorted cat_le (sort_cats l).
Proof.
  induction l as [| c l IH]; simpl; [constructor |].
  apply insert_cat_sorted. exact IH.
Qed.



Lemma distinct_thresholds_perm (l l' : list category) :
  Permutation l l' -> distinct_thresholds l -> distinct_thresholds l'.
Proof.
  unfold distinct_thresholds. intros P N.
  refine (PermutationA_preserves_NoDupA Q_Setoid _ N).
  apply (Permutation_PermutationA Q_Setoid).
  apply Permutation_map. exact P.
Qed.

(** With pairwise different thresholds there is one ascending order. *)
Lemma sorted_perm_unique (l l' : list category) :
  StronglySorted cat_le l -> StronglySorted cat_le l' ->
  Permutation l l' -> distinct_thresholds l -> l = l'.
Proof.
  revert l'. induction l as [| a l IH]; intros l' S S' P N.
  - apply Permutation_nil in P. subst. reflexivity.
  - destruct l' as [| b l'].
    + apply Permutation_sym, Permutation_nil in P. discriminate.
    + inversion S as [| ? ? Sl Fl]; subst.
      inversion S' as [| ? ? Sl' Fl']; subst.
      inversion N as [| ? ? Na Nl]; subst.
      assert (E : a = b).
      { assert (Ha : In a (b :: l')) by (apply (Permutation_in _ P); left; reflexivity).
        assert (Hb : In b (a :: l))
          by (apply (Permutation_in _ (Permutation_sym P)); left; reflexivity).
        destruct Ha as [Ha | Ha]; [symmetry; exact Ha |].
        destruct Hb as [Hb | Hb]; [exact Hb |].
        exfalso. apply Na.
        rewrite Forall_forall in Fl, Fl'.
        apply InA_alt. exists (snd b). split.
        - apply Qle_antisym; [apply Fl; exact Hb | apply Fl'; exact Ha].
        - apply in_map. exact Hb. }
      subst b. f_equal.
      apply IH; try assumption.
      apply Permutation_cons_inv with a. exact P.
Qed.

Lemma sort_cats_perm_invariant (cs cs' : list category) :
  Permutation cs cs' -> distinct_thresholds cs -> sort_cats cs = sort_cats cs'.
Proof.
  intros P N. apply sorted_perm_unique.
  - apply sort_cats_sorted.
  - apply sort_cats_sorted.
  - rewrite <- (sort_cats_perm cs), <- (sort_cats_perm cs'). exact P.
  - apply distinct_thresholds_perm with cs; [apply sort_cats_perm | exact N].
Qed.

(** ** Subscripting *)

Lemma index_items_nat (l : list value) (k : nat) :
  index_items l (Z.of_nat k) =
  match nth_error l k with
  | Some x => Ok x
  | None => Err IndexError
  end.
Proof.
  unfold index_items.
  destruct (Z.ltb_spec (Z.of_nat k) 0) as [H | _]; [lia |].
  destruct (Z.leb_spec 0 (Z.of_nat k)) as [_ | H]; [| lia].
  rewrite Nat2Z.id. simpl.
  destruct (Z.ltb_spec (Z.of_nat k) (Z.of_nat (List.length l))) as [H | H].
  - reflexivity.
  - assert (E : nth_error l k = None) by (apply nth_error_None; lia).
    rewrite E. reflexivity.
Qed.

Lemma index_items_last (l : list value) (x : value) :
  index_items (l ++ [x]) (-1) = Ok x.
Proof.
  unfold index_items. rewrite length_app. simpl List.length.
  change (-1 <? 0)%Z with true. cbv iota.
  replace (-1 + Z.of_nat (List.length l + 1))%Z with (Z.of_nat (List.length l)) by lia.
  destruct (Z.leb_spec 0 (Z.of_nat (List.length l))) as [_ | H]; [| lia].
  destruct (Z.ltb_spec (Z.of_nat (List.length l)) (Z.of_nat (List.length l + 1)))
    as [_ | H]; [| lia].
  simpl. rewrite Nat2Z.id.
  rewrite nth_error_app2 by lia. rewrite Nat.sub_diag. reflexivity.
Qed.

(** ** Binary search *)

(** Enough fuel: the outcome of the loop does not depend on it. *)
Lemma bisect_loop_fuel (a : list value) (x : value) (fuel fuel' lo hi : nat) :
  hi - lo <= fuel -> hi - lo <= fuel' ->
  bisect_loop fuel a x lo hi = bisect_loop fuel' a x lo hi.
Proof.
  revert fuel' lo hi.
  induction fuel as [| fuel IH]; intros fuel' lo hi H H'.
  - destruct fuel' as [| fuel']; [reflexivity |]. cbn [bisect_loop].
    destruct (Nat.ltb_spec lo hi); [lia | reflexivity].
  - destruct fuel' as [| fuel']; cbn [bisect_loop].
    + destruct (Nat.ltb_spec lo hi); [lia | reflexivity].
    + destruct (Nat.ltb_spec lo hi) as [L | L]; [| reflexivity].
      assert (M : lo <= (lo + hi) / 2 < hi).
      { pose proof (Nat.div_mod_eq (lo + hi) 2) as D.
        pose proof (Nat.mod_upper_bound (lo + hi) 2) as U. lia. }
      destruct (value_lt x (nth ((lo + hi) / 2) a (VNum 0))) as [[|] | e];
        cbn [bind]; [apply IH | apply IH | reflexivity]; lia.
Qed.

Lemma nth_thresholds (s : list category) (j : nat) :
  nth j (thresholds s) (VNum 0) = VNum (thr s j).
Proof.
  unfold thresholds, thr.
  change (VNum 0) with ((fun c : category => VNum (snd c)) (VNum 0, 0%Q)) at 1.
  rewrite map_nth. reflexivity.
Qed.

Lemma sorted_thr (s : list category) :
  StronglySorted cat_le s ->
  forall i j, i <= j -> j < List.length s -> (thr s i <= thr s j)%Q.
Proof.
  induction 1 as [| a s S IH F]; intros i j Hij Hj; [simpl in Hj; lia |].
  destruct j as [| j].
  - replace i with 0 by lia. apply Qle_refl.
  - destruct i as [| i].
    + unfold thr. simpl. rewrite Forall_forall in F.
      apply F. apply nth_In. simpl in Hj. lia.
    + apply (IH i j); simpl in Hj; lia.
Qed.

Lemma bisect_loop_spec (s : list category) (v : Q) :
  StronglySorted cat_le s ->
  forall fuel lo hi,
    lo <= hi <= List.length s -> hi - lo <= fuel ->
    (forall j, j < lo -> (thr s j <= v)%Q) ->
    (forall j, hi <= j < List.length s -> (v < thr s j)%Q) ->
    exists k, bisect_loop fuel (thresholds s) (VNum v) lo hi = Ok k /\
              k <= List.length s /\
              (forall j, j < k -> (thr s j <= v)%Q) /\
              (forall j, k <= j < List.length s -> (v < thr s j)%Q).
Proof.
  intros S. induction fuel as [| fuel IH]; intros lo hi B Hf Hlo Hhi.
  - exists lo. simpl. repeat split; [lia | exact Hlo |].
    intros j Hj. apply Hhi. lia.
  - cbn [bisect_loop]. destruct (Nat.ltb_spec lo hi) as [L | L].
    + assert (M : lo <= (lo + hi) / 2 < hi).
      { pose proof (Nat.div_mod_eq (lo + hi) 2) as D.
        pose proof (Nat.mod_upper_bound (lo + hi) 2) as U. lia. }
      set (mid := (lo + hi) / 2) in *.
      rewrite nth_thresholds. cbn [value_lt bind].
      destruct (Qltb v (thr s mid)) eqn:E.
      * apply Qltb_true in E. apply IH; [lia | lia | exact Hlo |].
        intros j Hj. apply Qlt_le_trans with (thr s mid); [exact E |].
        apply sorted_thr; [exact S | lia | lia].
      * apply Qltb_false in E. apply IH; [lia | lia | | exact Hhi].
        intros j Hj. apply Qle_trans with (thr s mid); [| exact E].
        apply sorted_thr; [exact S | lia | lia].
    + exists lo. repeat split; [lia | exact Hlo |].
      intros j Hj. apply Hhi. lia.
Qed.

Lemma find_first_index {A : Type} (p : A -> bool) (d : A) (s : list A) (k : nat) :
  k <= List.length s ->
  (forall j, j < k -> p (nth j s d) = false) ->
  (forall j, k <= j < List.length s -> p (nth j s d) = true) ->
  find p s = nth_error s k.
Proof.
  revert k. induction s as [| a s IH]; intros k Hk Hlo Hhi.
  - destruct k; reflexivity.
  - destruct k as [| k]; simpl.
    + assert (H0 : p (nth 0 (a :: s) d) = true) by (apply Hhi; simpl; lia).
      simpl in H0. rewrite H0. reflexivity.
    + assert (H0 : p (nth 0 (a :: s) d) = false) by (apply Hlo; lia).
      simpl in H0. rewrite H0. apply IH.
      * simpl in Hk. lia.
      * intros j Hj. apply (Hlo (S j)). lia.
      * intros j Hj. apply (Hhi (S j)). simpl. lia.
Qed.

(** On thresholds in ascending order [bisect] finds the position of the first
    threshold above the number. *)
Lemma bisect_sorted (s : list category) (v : Q) :
  StronglySorted cat_le s ->
  exists k, bisect (thresholds s) (VNum v) = Ok k /\
            nth_error s k = first_above v s.
Proof.
  intros S. unfold bisect, thresholds. rewrite length_map. fold (thresholds s).
  destruct (bisect_loop_spec s v S (List.length s) 0 (List.length s))
    as (k & Ek & Hk & Hlo & Hhi); try lia.
  exists k. split; [exact Ek |].
  symmetry. unfold first_above.
  apply find_first_index with (d := (VNum 0, 0%Q)); [exact Hk | |].
  - intros j Hj. apply Qltb_false. apply Hlo. exact Hj.
  - intros j Hj. apply Qltb_true. apply Hhi. exact Hj.
Qed.

(** Line 76 for an element that carries a number. *)
Lemma categorize_sorted (s : list category) (i : value) (v : Q) :
  StronglySorted cat_le s -> has_price i v ->
  categorize (labels s) (thresholds s) i =
  match first_above v s with
  | Some c => Ok (i, fst c)
  | None => Err IndexError
  end.
Proof.
  intros S P. unfold categorize. rewrite P. simpl.
  destruct (bisect_sorted s v S) as (k & Ek & Hk).
  rewrite Ek. simpl. rewrite index_items_nat.
  unfold labels. rewrite nth_error_map, Hk.
  destruct (first_above v s); reflexivity.
Qed.

(** ** The two shapes of a table *)

Lemma value_lt_num_opaque (q : Q) (x : value) :
  is_num x = false -> value_lt (VNum q) x = Err TypeError.
Proof. destruct x; simpl; [discriminate | reflexivity ..]. Qed.

Lemma zip_items_two (cs : list category) :
  zip_items [labels cs; thresholds cs] = map (fun c => [fst c; VNum (snd c)]) cs.
Proof.
  unfold zip_items. induction cs as [| c cs IH]; [reflexivity |].
  simpl. f_equal. exact IH.
Qed.

Lemma zip_items_rows (cs : list category) :
  cs <> [] ->
  zip_items (map (fun c => [fst c; VNum (snd c)]) cs) = [labels cs; thresholds cs].
Proof.
  induction cs as [| c cs IH]; intros N; [congruence |].
  destruct cs as [| d cs]; [reflexivity |].
  change (zip_items (map (fun c => [fst c; VNum (snd c)]) (c :: d :: cs)))
    with (map (fun p : value * list value => fst p :: snd p)
            (combine [fst c; VNum (snd c)]
               (zip_items (map (fun c => [fst c; VNum (snd c)]) (d :: cs))))).
  rewrite IH by discriminate. reflexivity.
Qed.

Lemma iter_rows (b : bool) (cs : list category) :
  mapM iter_value (map (row b) cs) = Ok (map (fun c => [fst c; VNum (snd c)]) cs).
Proof.
  apply mapM_map_ok. intros c _. destruct b; reflexivity.
Qed.

(** Transposing Shape A gives the rows of Shape B, as lists. *)
Lemma transpose_shapeA (cs : list category) :
  transpose (shapeA cs) = Ok (VList (map (row false) cs)).
Proof.
  unfold transpose, shapeA. cbn [iter_value bind mapM].
  fold (labels cs). fold (thresholds cs).
  rewrite zip_items_two, map_map. reflexivity.
Qed.

Lemma transpose_rows (b : bool) (s : list category) :
  s <> [] ->
  transpose (VList (map (row b) s)) = Ok (VList [VList (labels s); VList (thresholds s)]).
Proof.
  intros N. unfold transpose. cbn [iter_value bind]. rewrite iter_rows.
  cbn [bind]. rewrite zip_items_rows by exact N. reflexivity.
Qed.

Lemma unpack_rows_sorted (b : bool) (s : list category) :
  s <> [] -> unpack_rows (VList (map (row b) s)) = Ok (labels s, thresholds s).
Proof.
  intros N. unfold unpack_rows. rewrite transpose_rows by exact N. reflexivity.
Qed.

Lemma insert_by_key_rows (b : bool) (c : category) (l : list category) :
  insert_by_key (VNum (snd c), row b c) (map (fun d => (VNum (snd d), row b d)) l) =
  Ok (map (fun d => (VNum (snd d), row b d)) (insert_cat c l)).
Proof.
  induction l as [| d l IH]; [reflexivity |].
  simpl. destruct (Qltb (snd d) (snd c)); [| reflexivity].
  simpl in IH. rewrite IH. reflexivity.
Qed.

Lemma sort_keyed_rows (b : bool) (cs : list category) :
  sort_keyed (map (fun d => (VNum (snd d), row b d)) cs) =
  Ok (map (fun d => (VNum (snd d), row b d)) (sort_cats cs)).
Proof.
  induction cs as [| c cs IH]; [reflexivity |].
  simpl. simpl in IH. rewrite IH. simpl. apply insert_by_key_rows.
Qed.

(** [sorted] on the rows of the categories is [sort_cats] on the categories. *)
Lemma sorted_by_last_rows (b : bool) (cs : list category) :
  sorted_by_last (VList (map (row b) cs)) = Ok (VList (map (row b) (sort_cats cs))).
Proof.
  unfold sorted_by_last. simpl.
  assert (K : mapM (fun x => k <- getitem x (-1) ;; Ok (k, x)) (map (row b) cs) =
              Ok (map (fun d => (VNum (snd d), row b d)) cs)).
  { apply mapM_map_ok. intros c _. destruct b; reflexivity. }
  rewrite K. simpl. rewrite sort_keyed_rows. simpl. rewrite map_map. reflexivity.
Qed.

(** On Shape A with categories, [sorted] compares the last threshold with
    the last label. *)
Lemma sorted_by_last_shapeA (cs : list category) (c : category) :
  is_num (fst c) = false -> sorted_by_last (shapeA (cs ++ [c])) = Err TypeError.
Proof.
  intros H. unfold sorted_by_last, shapeA.
  cbn [iter_value bind mapM getitem].
  rewrite !map_app. cbn [map]. rewrite !index_items_last.
  cbn [bind sort_keyed insert_by_key fst].
  rewrite value_lt_num_opaque by exact H. reflexivity.
Qed.

Lemma sort_block_rows (b : bool) (cs : list category) :
  sort_block (VList (map (row b) cs)) = Ok (VList (map (row b) (sort_cats cs))).
Proof. unfold sort_block. rewrite sorted_by_last_rows. reflexivity. Qed.

Lemma sort_block_shapeA (cs : list category) (c : category) :
  is_num (fst c) = false ->
  sort_block (shapeA (cs ++ [c])) =
  Ok (VList (map (row false) (sort_cats (cs ++ [c])))).
Proof.
  intros H. unfold sort_block.
  rewrite sorted_by_last_shapeA by exact H. cbn [try_except_TypeError].
  rewrite transpose_shapeA. cbn [bind]. apply sorted_by_last_rows.
Qed.

Lemma first_block_shapeA (cs : list category) :
  first_block (shapeA cs) = Ok (shapeA cs).
Proof. reflexivity. Qed.

Lemma first_block_shapeB (cs : list category) :
  cs <> [] -> first_block (shapeB cs) = Ok (shapeB cs).
Proof. destruct cs as [| c cs]; [congruence | reflexivity]. Qed.

Lemma map_items_rows (b : bool) (iterable : value) (s : list category) :
  s <> [] -> map_items iterable (VList (map (row b) s)) = lookup_all iterable s.
Proof.
  intros N. unfold map_items. rewrite unpack_rows_sorted by exact N. reflexivity.
Qed.

Lemma labels_opaque_last (cs : list category) (c : category) :
  labels_opaque (cs ++ [c]) -> is_num (fst c) = false.
Proof.
  unfold labels_opaque. rewrite Forall_app. intros [_ H].
  inversion H. assumption.
Qed.

(** The whole function on a table of either shape that has categories. *)
Lemma category_mapping_shapeB (iterable : value) (cs : list category) :
  cs <> [] ->
  category_mapping iterable (shapeB cs) = lookup_all iterable (sort_cats cs).
Proof.
  intros N. unfold category_mapping.
  rewrite first_block_shapeB by exact N. cbn [bind].
  change (shapeB cs) with (VList (map (row true) cs)).
  rewrite sort_block_rows. cbn [bind].
  apply map_items_rows. apply sort_cats_nonempty. exact N.
Qed.

Lemma category_mapping_shapeA (iterable : value) (cs : list category) :
  cs <> [] -> labels_opaque cs ->
  category_mapping iterable (shapeA cs) = lookup_all iterable (sort_cats cs).
Proof.
  intros N O. unfold category_mapping.
  rewrite first_block_shapeA. cbn [bind].
  destruct (exists_last N) as (cs' & c & ->).
  rewrite sort_block_shapeA by (apply labels_opaque_last with cs'; exact O).
  cbn [bind]. apply map_items_rows. apply sort_cats_nonempty. exact N.
Qed.

(** A table without categories. *)
Lemma category_mapping_empty (iterable : value) :
  category_mapping iterable (shapeA []) = Err IndexError /\
  category_mapping iterable (shapeB []) = Err IndexError.
Proof. split; reflexivity. Qed.

Lemma category_mapping_valid (iterable tbl : value) (cs : list category) :
  valid_table tbl cs ->
  category_mapping iterable tbl = lookup_all iterable (sort_cats cs).
Proof.
  intros (N & O & [-> | ->]).
  - apply category_mapping_shapeA; assumption.
  - apply category_mapping_shapeB; assumption.
Qed.

(** ** The first threshold above a number *)

Lemma first_above_min (s : list category) (v : Q) (c : category) :
  StronglySorted cat_le s -> first_above v s = Some c ->
  In c s /\ (v < snd c)%Q /\ forall d, In d s -> (v < snd d)%Q -> (snd c <= snd d)%Q.
Proof.
  unfold first_above. induction 1 as [| a s S IH F]; intros E; [discriminate |].
  simpl in E. destruct (Qltb v (snd a)) eqn:L.
  - injection E as <-. apply Qltb_true in L.
    split; [left; reflexivity |]. split; [exact L |].
    intros d [<- | Hd] _; [apply Qle_refl |].
    rewrite Forall_forall in F. apply F. exact Hd.
  - destruct (IH E) as (Hin & Hlt & Hmin).
    split; [right; exact Hin |]. split; [exact Hlt |].
    intros d [<- | Hd] Hv.
    + apply Qltb_false in L. exfalso. exact (Qlt_not_le _ _ Hv L).
    + apply Hmin; assumption.
Qed.

Lemma first_above_none (s : list category) (v : Q) :
  (forall c, In c s -> (snd c <= v)%Q) -> first_above v s = None.
Proof.
  unfold first_above. induction s as [| a s IH]; intros H; [reflexivity |].
  simpl. assert (L : Qltb v (snd a) = false)
    by (apply Qltb_false; apply H; left; reflexivity).
  rewrite L. apply IH. intros c Hc. apply H. right. exact Hc.
Qed.

Lemma first_above_some (s : list category) (v : Q) (c : category) :
  In c s -> (v < snd c)%Q -> exists d, first_above v s = Some d.
Proof.
  intros Hc Hv. destruct (first_above v s) as [d |] eqn:E; [exists d; reflexivity |].
  apply (find_none _ _ E) in Hc. apply Qltb_false in Hc.
  exfalso. exact (Qlt_not_le _ _ Hv Hc).
Qed.

Lemma has_price_unique (i : value) (v w : Q) :
  has_price i v -> has_price i w -> v = w.
Proof. unfold has_price. intros -> E. injection E as E. exact E. Qed.

(** An element below some threshold gets the label of the least threshold
    above it. *)
Lemma categorize_below (cs : list category) (i : value) (v : Q) (c : category) :
  has_price i v -> In c cs -> (v < snd c)%Q ->
  exists lab, categorize (labels (sort_cats cs)) (thresholds (sort_cats cs)) i
              = Ok (i, lab) /\ smallest_gt cs v lab.
Proof.
  intros P Hc Hv.
  rewrite (categorize_sorted _ i v (sort_cats_sorted cs) P).
  destruct (first_above_some (sort_cats cs) v c) as (d & E);
    [apply sort_cats_in; exact Hc | exact Hv |].
  rewrite E. exists (fst d). split; [reflexivity |].
  destruct (first_above_min _ _ _ (sort_cats_sorted cs) E) as (Hin & Hlt & Hmin).
  exists (snd d). split; [| split].
  - rewrite <- surjective_pairing. apply sort_cats_in. exact Hin.
  - exact Hlt.
  - intros l' t' H' Hv'. apply (Hmin (l', t')); [apply sort_cats_in; exact H' | exact Hv'].
Qed.

(** An element above every threshold has no label. *)
Lemma categorize_above (cs : list category) (i : value) (v : Q) :
  has_price i v -> (forall c, In c cs -> (snd c < v)%Q) ->
  categorize (labels (sort_cats cs)) (thresholds (sort_cats cs)) i = Err IndexError.
Proof.
  intros P H.
  rewrite (categorize_sorted _ i v (sort_cats_sorted cs) P).
  rewrite first_above_none; [reflexivity |].
  intros c Hc. apply Qlt_le_weak. apply H. apply sort_cats_in. exact Hc.
Qed.

Lemma categorize_priced (cs : list category) (i : value) (v : Q) :
  has_price i v ->
  (exists o, categorize (labels (sort_cats cs)) (thresholds (sort_cats cs)) i = Ok o) \/
  categorize (labels (sort_cats cs)) (thresholds (sort_cats cs)) i = Err IndexError.
Proof.
  intros P. rewrite (categorize_sorted _ i v (sort_cats_sorted cs) P).
  destruct (first_above v (sort_cats cs)) as [d |]; [left; eexists; reflexivity | right; reflexivity].
Qed.

(** * The mapping *)

(** C1 (as the code has it).  On a table with categories, when every element
    carries a number below some threshold, the call returns and gives each
    element the label of the least threshold strictly above its number. *)
Theorem category_mapping_smallest_gt
    (cs : list category) (tbl iterable : value) (items : list value) :
  valid_table tbl cs ->
  iter_value iterable = Ok items ->
  Forall (fun i => exists v c, has_price i v /\ In c cs /\ (v < snd c)%Q) items ->
  exists out,
    category_mapping iterable tbl = Ok out /\
    Forall2 (fun i o => fst o = i /\ forall v, has_price i v -> smallest_gt cs v (snd o))
      items out.
Proof.
  intros V I F. rewrite (category_mapping_valid _ _ _ V).
  unfold lookup_all. rewrite I. cbn [bind].
  clear I. induction F as [| i items (v & c & P & Hc & Hv) F IH].
  - exists []. split; [reflexivity | constructor].
  - destruct IH as (out & E & F2).
    destruct (categorize_below cs i v c P Hc Hv) as (lab & El & Hs).
    exists ((i, lab) :: out). split.
    + cbn [mapM]. rewrite El. cbn [bind]. rewrite E. reflexivity.
    + constructor; [| exact F2]. split; [reflexivity |].
      intros w Pw. rewrite <- (has_price_unique _ _ _ P Pw). exact Hs.
Qed.

(** C1, the boundary: a price equal to the threshold of "barato" is given
    the next label, which is not that of the least threshold at or above
    the price. *)
Lemma boundary_value_gets_next_label :
  has_price (elem "c" 1.3) 1.3 /\ (1.3 <= 3.1)%Q /\
  category_mapping (VList [elem "c" 1.3]) (shapeA beers)
    = Ok [(elem "c" 1.3, VStr "mais ou menos")] /\
  ~ smallest_ge beers 1.3 (VStr "mais ou menos").
Proof.
  split; [reflexivity |]. split; [discriminate |]. split; [reflexivity |].
  intros (t & Hin & _ & Hmin).
  assert (Et : t = 2%Q).
  { simpl in Hin. destruct Hin as [E | [E | [E | []]]]; congruence. }
  subst t.
  specialize (Hmin (VStr "barato") 1.3%Q (or_introl eq_refl)).
  apply Hmin; [discriminate | reflexivity].
Qed.

Lemma category_mapping_smallest_gt_witness :
  exists out,
    category_mapping (VList [elem "c" 1.3]) (shapeA beers) = Ok out /\
    Forall2 (fun i o => fst o = i /\
                        forall v, has_price i v -> smallest_gt beers v (snd o))
      [elem "c" 1.3] out.
Proof.
  apply (category_mapping_smallest_gt beers (shapeA beers)
           (VList [elem "c" 1.3]) [elem "c" 1.3]).
  - split; [discriminate |]. split; [| left; reflexivity].
    repeat constructor.
  - reflexivity.
  - constructor; [| constructor].
    exists 1.3%Q, (VStr "caro", 3.1%Q).
    split; [reflexivity |]. split; [simpl; tauto | reflexivity].
Defined.

(** C2 (as the code has it).  The scenario of the specification: the price
    1.3 equals the threshold of "barato" and is labelled "mais ou menos". *)
Theorem scenario_shapeA_output :
  category_mapping (VList [elem "a" 2.5; elem "b" 0.5; elem "c" 1.3]) (shapeA beers)
  = Ok [(elem "a" 2.5, VStr "caro");
        (elem "b" 0.5, VStr "barato");
        (elem "c" 1.3, VStr "mais ou menos")].
Proof. reflexivity. Qed.

(** C2, as stated: the output with "barato" for the price 1.3 is not the one
    the function returns. *)
Lemma scenario_shapeA_not_as_stated :
  category_mapping (VList [elem "a" 2.5; elem "b" 0.5; elem "c" 1.3]) (shapeA beers)
  <> Ok [(elem "a" 2.5, VStr "caro");
         (elem "b" 0.5, VStr "barato");
         (elem "c" 1.3, VStr "barato")].
Proof. intros H. vm_compute in H. discriminate H. Qed.

(** The two rows that lines 63-74 compute from a valid table. *)
Lemma table_rows_valid (tbl : value) (cs : list category) :
  valid_table tbl cs ->
  (c1 <- first_block tbl ;; c2 <- sort_block c1 ;; unpack_rows c2)
  = Ok (labels (sort_cats cs), thresholds (sort_cats cs)).
Proof.
  intros (N & O & [-> | ->]).
  - rewrite first_block_shapeA. cbn [bind].
    destruct (exists_last N) as (cs' & c & ->).
    rewrite sort_block_shapeA by (apply labels_opaque_last with cs'; exact O).
    cbn [bind]. apply unpack_rows_sorted. apply sort_cats_nonempty. exact N.
  - rewrite first_block_shapeB by exact N. cbn [bind].
    change (shapeB cs) with (VList (map (row true) cs)).
    rewrite sort_block_rows. cbn [bind].
    apply unpack_rows_sorted. apply sort_cats_nonempty. exact N.
Qed.

(** Above every threshold the search answers the length of the row. *)
Lemma bisect_above_all (s : list category) (v : Q) :
  StronglySorted cat_le s ->
  (forall c, In c s -> (snd c < v)%Q) ->
  bisect (thresholds s) (VNum v) = Ok (List.length s).
Proof.
  intros S H. unfold bisect, thresholds. rewrite length_map. fold (thresholds s).
  destruct (bisect_loop_spec s v S (List.length s) 0 (List.length s))
    as (k & Ek & Hk & _ & Hhi); try lia.
  rewrite Ek. f_equal.
  destruct (Nat.eq_dec k (List.length s)) as [E | E]; [exact E |].
  exfalso. assert (L : k < List.length s) by lia.
  apply (Qlt_irrefl v). apply Qlt_trans with (thr s k).
  - apply Hhi. lia.
  - unfold thr. apply H. apply nth_In. exact L.
Qed.

Lemma index_items_past_end (l : list value) :
  index_items l (Z.of_nat (List.length l)) = Err IndexError.
Proof.
  rewrite index_items_nat.
  assert (E : nth_error l (List.length l) = None) by (apply nth_error_None; lia).
  rewrite E. reflexivity.
Qed.

(** C3 (as the code has it).  There is no check of the range.  On a valid
    table, for an element whose number is above every threshold, [bisect]
    answers the length of the label row, [cat0] is subscripted one past its
    end, and the [IndexError] of that subscript ends the call, provided the
    elements before it carry numbers; what follows the element is not
    looked at. *)
Theorem exceeding_value_raises_IndexError
    (cs : list category) (tbl iterable : value) (pre post : list value)
    (i : value) (v : Q) :
  valid_table tbl cs ->
  iter_value iterable = Ok (pre ++ i :: post) ->
  Forall (fun j => exists w, has_price j w) pre ->
  has_price i v ->
  (forall c, In c cs -> (snd c < v)%Q) ->
  category_mapping iterable tbl = Err IndexError /\
  exists cat0 cat1,
    (c1 <- first_block tbl ;; c2 <- sort_block c1 ;; unpack_rows c2) = Ok (cat0, cat1) /\
    bisect cat1 (VNum v) = Ok (List.length cat0) /\
    index_items cat0 (Z.of_nat (List.length cat0)) = Err IndexError.
Proof.
  intros V I F P H. split.
  - rewrite (category_mapping_valid _ _ _ V).
    unfold lookup_all. rewrite I. cbn [bind]. clear I.
    induction F as [| j pre (w & Pj) _ IH]; cbn [app mapM].
    + rewrite (categorize_above cs i v P H). reflexivity.
    + rewrite IH.
      destruct (categorize_priced cs j w Pj) as [(o & ->) | ->]; reflexivity.
  - exists (labels (sort_cats cs)), (thresholds (sort_cats cs)).
    split; [apply table_rows_valid; exact V |].
    split; [| apply index_items_past_end].
    unfold labels. rewrite length_map.
    apply bisect_above_all; [apply sort_cats_sorted |].
    intros c Hc. apply H. apply sort_cats_in. exact Hc.
Qed.

Lemma exceeding_value_raises_IndexError_witness :
  category_mapping (VList [elem "a" 2.5; elem "z" 1000; VNum 7]) (shapeB beers)
  = Err IndexError /\
  exists cat0 cat1,
    (c1 <- first_block (shapeB beers) ;; c2 <- sort_block c1 ;; unpack_rows c2)
    = Ok (cat0, cat1) /\
    bisect cat1 (VNum 1000) = Ok (List.length cat0) /\
    index_items cat0 (Z.of_nat (List.length cat0)) = Err IndexError.
Proof.
  apply (exceeding_value_raises_IndexError beers (shapeB beers)
           (VList [elem "a" 2.5; elem "z" 1000; VNum 7])
           [elem "a" 2.5] [VNum 7] (elem "z" 1000) 1000%Q).
  - split; [discriminate |]. split; [repeat constructor | right; reflexivity].
  - reflexivity.
  - repeat constructor. eexists. reflexivity.
  - reflexivity.
  - intros c Hc. simpl in Hc.
    destruct Hc as [<- | [<- | [<- | []]]]; reflexivity.
Defined.

(** C3, as stated: for the price 1000 the code does subscript the three
    labels at position 3, and the exception of the call is the plain
    [IndexError] of that subscript: the very exception of an element without
    position 1 and of a table without categories, not one of its own. *)
Lemma exceeding_value_indexes_past_end :
  (c1 <- first_block (shapeA beers) ;; c2 <- sort_block c1 ;; unpack_rows c2)
  = Ok (labels beers, thresholds beers) /\
  bisect (thresholds beers) (VNum 1000) = Ok 3 /\
  List.length (labels beers) = 3 /\
  categorize (labels beers) (thresholds beers) (elem "z" 1000)
  = (lab <- index_items (labels beers) 3 ;; Ok (elem "z" 1000, lab)) /\
  category_mapping (VList [elem "z" 1000]) (shapeA beers) = Err IndexError /\
  category_mapping (VList [VTuple [VStr "z"]]) (shapeA beers) = Err IndexError /\
  category_mapping (VList [elem "z" 1000]) (VList []) = Err IndexError.
Proof. repeat split; reflexivity. Qed.

(** C4 (as the code has it).  With labels that are not numbers, Shape A and
    Shape B of the same categories give the same outcome on every input. *)
Theorem shape_invariance (cs : list category) (iterable : value) :
  labels_opaque cs ->
  category_mapping iterable (shapeA cs) = category_mapping iterable (shapeB cs).
Proof.
  intros O. destruct cs as [| c cs]; [reflexivity |].
  rewrite category_mapping_shapeA by (discriminate || exact O).
  rewrite category_mapping_shapeB by discriminate.
  reflexivity.
Qed.

Lemma shape_invariance_witness :
  category_mapping (VList [elem "a" 2.5]) (shapeA beers)
  = category_mapping (VList [elem "a" 2.5]) (shapeB beers).
Proof.
  apply (shape_invariance beers (VList [elem "a" 2.5])).
  repeat constructor.
Defined.

(** C4, as stated: with numbers as labels the two shapes of the same
    categories give different outputs. *)
Lemma shapes_differ_on_numeric_labels :
  category_mapping (VList [elem "x" 1.5]) (shapeA numeric_labels)
  <> category_mapping (VList [elem "x" 1.5]) (shapeB numeric_labels).
Proof. intros H. vm_compute in H. discriminate H. Qed.

(** C5 (as the code has it).  With pairwise different thresholds, the order
    in which the table lists its categories does not change the outcome. *)
Theorem table_order_independence (cs cs' : list category) (iterable : value) :
  Permutation cs cs' -> distinct_thresholds cs -> labels_opaque cs ->
  category_mapping iterable (shapeA cs) = category_mapping iterable (shapeA cs') /\
  category_mapping iterable (shapeB cs) = category_mapping iterable (shapeB cs').
Proof.
  intros P N O.
  assert (O' : labels_opaque cs') by (exact (Permutation_Forall P O)).
  destruct cs as [| c cs0].
  - apply Permutation_nil in P. subst cs'. split; reflexivity.
  - assert (N' : cs' <> []).
    { intros ->. apply Permutation_sym, Permutation_nil in P. discriminate. }
    rewrite !category_mapping_shapeA, !category_mapping_shapeB
      by (assumption || discriminate).
    rewrite (sort_cats_perm_invariant _ _ P N). split; reflexivity.
Qed.

Lemma table_order_independence_witness :
  category_mapping (VList [elem "a" 2.5]) (shapeA beers)
  = category_mapping (VList [elem "a" 2.5]) (shapeA (rev beers)) /\
  category_mapping (VList [elem "a" 2.5]) (shapeB beers)
  = category_mapping (VList [elem "a" 2.5]) (shapeB (rev beers)).
Proof.
  apply (table_order_independence beers (rev beers) (VList [elem "a" 2.5])).
  - apply Permutation_rev.
  - unfold distinct_thresholds, beers. simpl.
    repeat constructor; rewrite InA_alt; intros (y & E & Hy); simpl in Hy;
      repeat (destruct Hy as [<- | Hy]; [discriminate E |]); exact Hy.
  - repeat constructor.
Defined.

(** C5, as stated: two categories with one threshold, listed in the two
    orders, label the same element differently. *)
Lemma table_order_matters_with_ties :
  Permutation tied tied_swapped /\
  category_mapping (VList [elem "x" 0.5]) (shapeB tied)
  <> category_mapping (VList [elem "x" 0.5]) (shapeB tied_swapped).
Proof.
  split; [apply perm_swap |].
  intros H. vm_compute in H. discriminate H.
Qed.

Lemma categorize_fst (cat0 cat1 : list value) (i : value) (o : value * value) :
  categorize cat0 cat1 i = Ok o -> fst o = i.
Proof.
  unfold categorize. intros H.
  destruct (getitem i 1) as [v | e]; [| discriminate H]. cbn [bind] in H.
  destruct (bisect cat1 v) as [k | e]; [| discriminate H]. cbn [bind] in H.
  destruct (index_items cat0 (Z.of_nat k)) as [lab | e]; [| discriminate H].
  injection H as <-. reflexivity.
Qed.

Lemma mapM_categorize_fst (cat0 cat1 : list value) (items : list value)
    (out : list (value * value)) :
  mapM (categorize cat0 cat1) items = Ok out -> map fst out = items.
Proof.
  intros H. apply mapM_ok_Forall2 in H.
  induction H as [| i o items out Hi _ IH]; [reflexivity |].
  simpl. rewrite IH. rewrite (categorize_fst _ _ _ _ Hi). reflexivity.
Qed.

(** C6.  Whatever the table, an output has one pair per element of the
    input, in the order of the input, and the first component of each pair is
    the element itself; on a table with categories an empty input gives the
    empty output. *)
Theorem output_preserves_input :
  (forall iterable cats out,
      category_mapping iterable cats = Ok out ->
      exists items, iter_value iterable = Ok items /\
                    List.length out = List.length items /\
                    map fst out = items) /\
  (forall tbl cs, valid_table tbl cs ->
      category_mapping (VList []) tbl = Ok [] /\
      category_mapping (VTuple []) tbl = Ok []).
Proof.
  split.
  - intros iterable cats out H. unfold category_mapping in H.
    destruct (first_block cats) as [cats1 | e]; [| discriminate H]. cbn [bind] in H.
    destruct (sort_block cats1) as [cats2 | e]; [| discriminate H]. cbn [bind] in H.
    unfold map_items in H.
    destruct (unpack_rows cats2) as [rows | e]; [| discriminate H]. cbn [bind] in H.
    destruct (iter_value iterable) as [items | e]; [| discriminate H]. cbn [bind] in H.
    exists items. apply mapM_categorize_fst in H.
    split; [reflexivity |]. split; [| exact H].
    rewrite <- H. rewrite length_map. reflexivity.
  - intros tbl cs V. rewrite !(category_mapping_valid _ _ _ V). split; reflexivity.
Qed.

Lemma output_preserves_input_witness :
  exists items,
    iter_value (VList [elem "a" 2.5; elem "b" 0.5]) = Ok items /\
    List.length [(elem "a" 2.5, VStr "caro"); (elem "b" 0.5, VStr "barato")]
      = List.length items /\
    map fst [(elem "a" 2.5, VStr "caro"); (elem "b" 0.5, VStr "barato")] = items.
Proof.
  apply (proj1 output_preserves_input
           (VList [elem "a" 2.5; elem "b" 0.5]) (shapeB beers)).
  reflexivity.
Defined.

(** C7 (as the code has it).  A table without categories raises before the
    input is looked at, and the exception is [IndexError]: that of
    [cats[0]] on line 64 (for two empty rows, that of [x[-1]] on
    line 69). *)
Theorem empty_table_raises (iterable : value) :
  category_mapping iterable (VList []) = Err IndexError /\
  category_mapping iterable (VTuple []) = Err IndexError /\
  category_mapping iterable (shapeA []) = Err IndexError /\
  category_mapping iterable (shapeB []) = Err IndexError.
Proof. repeat split; reflexivity. Qed.

(** C7, as stated: on the empty table the exception is not the [TypeError]
    of a table in the wrong format.  It leaves the [try] of line 63 past
    its [except TypeError], whose branch is not run, and it is the
    exception that an out-of-range price raises on a valid table. *)
Lemma empty_table_error_is_not_TypeError :
  first_block (VList []) = Err IndexError /\
  category_mapping (VList [elem "a" 2.5]) (VList []) = Err IndexError /\
  category_mapping (VList [elem "a" 2.5]) (VList []) <> Err TypeError /\
  category_mapping (VList [elem "a" 2.5]) (VList [VNum 1]) = Err TypeError /\
  category_mapping (VList [elem "z" 1000]) (shapeB beers) = Err IndexError.
Proof.
  repeat split; try reflexivity.
  intros H. vm_compute in H. discriminate H.
Qed.

(** C8.  On the Shape A table [[[10, 20], [1.0, 2.0]]] the sort succeeds on
    the two rows as they are, the call returns, and the label it gives to
    the price 1.5 is the threshold 1.0: it is none of the labels, and not the
    label of the least threshold at or above 1.5. *)
Theorem numeric_labels_defeat_dispatch :
  first_block (shapeA numeric_labels) = Ok (shapeA numeric_labels) /\
  sorted_by_last (shapeA numeric_labels)
    = Ok (VList [VList [VNum 1; VNum 2]; VList [VNum 10; VNum 20]]) /\
  sort_block (shapeA numeric_labels) = sorted_by_last (shapeA numeric_labels) /\
  category_mapping (VList [elem "x" 1.5]) (shapeA numeric_labels)
    = Ok [(elem "x" 1.5, VNum 1)] /\
  existsb (value_eqb (VNum 1)) (labels numeric_labels) = false /\
  ~ smallest_ge numeric_labels 1.5 (VNum 1).
Proof.
  repeat split; try reflexivity.
  intros (t & Hin & _). simpl in Hin.
  destruct Hin as [E | [E | []]]; discriminate E.
Qed.

(** ** Categories with one threshold *)








(** ** The first [try] block *)

Lemma shapeA_first_row_has_len (cs : list category) :
  exists x n, getitem (shapeA cs) 0 = Ok x /\ len x = Ok n.
Proof. exists (VList (labels cs)), (List.length (labels cs)). split; reflexivity. Qed.

Lemma shapeB_first_row_has_len (cs : list category) :
  cs <> [] -> exists x n, getitem (shapeB cs) 0 = Ok x /\ len x = Ok n.
Proof.
  destruct cs as [| c cs]; [congruence |]. intros _.
  exists (VTuple [fst c; VNum (snd c)]), 2. split; reflexivity.
Qed.

(** The answer of [isiter] plays no part: the block only asks whether
    [cats[0]] and its length can be taken. *)
Lemma first_block_ignores_isiter (cats : value) :
  first_block cats =
  try_except_TypeError (x <- getitem cats 0 ;; _ <- len x ;; Ok cats) (transpose cats).
Proof.
  unfold first_block, shape_probe.
  destruct (getitem cats 0) as [x | e]; [| reflexivity]. cbn [bind].
  destruct (len x) as [n | e]; reflexivity.
Qed.

(** C10.  When [cats[0]] exists and has a length, lines 63-66 leave the
    table as it is, and the function is the function without these lines. *)
Theorem first_block_is_identity (iterable cats x : value) (n : nat) :
  getitem cats 0 = Ok x -> len x = Ok n ->
  first_block cats = Ok cats /\
  category_mapping iterable cats = category_mapping_sort_only iterable cats.
Proof.
  intros G L.
  assert (F : first_block cats = Ok cats).
  { unfold first_block, shape_probe. rewrite G. cbn [bind]. rewrite L. reflexivity. }
  split; [exact F |].
  unfold category_mapping, category_mapping_sort_only. rewrite F. reflexivity.
Qed.

Lemma first_block_is_identity_witness :
  first_block (shapeA beers) = Ok (shapeA beers) /\
  category_mapping (VList [elem "a" 2.5]) (shapeA beers)
  = category_mapping_sort_only (VList [elem "a" 2.5]) (shapeA beers).
Proof.
  apply (first_block_is_identity (VList [elem "a" 2.5]) (shapeA beers)
           (VList (labels beers)) 3); reflexivity.
Defined.

(** * Further properties of the code *)

(** ** Which inputs are labelled *)

Lemma mapM_app {A B : Type} (f : A -> result B) (l m : list A) :
  mapM f (l ++ m) = (a <- mapM f l ;; b <- mapM f m ;; Ok (a ++ b)).
Proof.
  induction l as [| x l IH]; simpl.
  - destruct (mapM f m); reflexivity.
  - destruct (f x) as [y | e]; [| reflexivity]. cbn [bind].
    rewrite IH. destruct (mapM f l) as [a | e]; [| reflexivity]. cbn [bind].
    destruct (mapM f m); reflexivity.
Qed.

(** On a table with categories the search compares the value with a
    threshold at once: a value that is not a number raises [TypeError]. *)
Lemma bisect_opaque (s : list category) (x : value) :
  s <> [] -> is_num x = false -> bisect (thresholds s) x = Err TypeError.
Proof.
  intros N H. unfold bisect, thresholds. rewrite length_map. fold (thresholds s).
  destruct s as [| c s]; [congruence |].
  cbn [List.length bisect_loop]. destruct (Nat.ltb_spec 0 (S (List.length s))); [| lia].
  rewrite nth_thresholds. destruct x; [discriminate H | reflexivity ..].
Qed.

Lemma categorize_opaque (s : list category) (i x : value) :
  s <> [] -> getitem i 1 = Ok x -> is_num x = false ->
  categorize (labels s) (thresholds s) i = Err TypeError.
Proof.
  intros N G H. unfold categorize. rewrite G. cbn [bind].
  rewrite bisect_opaque by assumption. reflexivity.
Qed.

Lemma categorize_unsubscriptable (cat0 cat1 : list value) (i : value) (e : exn) :
  getitem i 1 = Err e -> categorize cat0 cat1 i = Err e.
Proof. intros G. unfold categorize. rewrite G. reflexivity. Qed.

(** What a successful lookup of one element says about the element. *)
Lemma categorize_ok_inv (cs : list category) (i : value) (o : value * value) :
  cs <> [] ->
  categorize (labels (sort_cats cs)) (thresholds (sort_cats cs)) i = Ok o ->
  exists v c, has_price i v /\ first_above v (sort_cats cs) = Some c /\ o = (i, fst c).
Proof.
  intros N H.
  destruct (getitem i 1) as [x | e] eqn:G;
    [| rewrite (categorize_unsubscriptable _ _ _ _ G) in H; discriminate H].
  destruct x as [v | s | l | l];
    try (rewrite (categorize_opaque _ i _ (sort_cats_nonempty _ N) G eq_refl) in H;
         discriminate H).
  rewrite (categorize_sorted _ i v (sort_cats_sorted cs) G) in H.
  destruct (first_above v (sort_cats cs)) as [c |] eqn:E; [| discriminate H].
  injection H as <-. exists v, c. repeat split; assumption.
Qed.

Lemma first_above_in_range (cs : list category) (v : Q) (c : category) :
  first_above v (sort_cats cs) = Some c -> In c cs /\ (v < snd c)%Q.
Proof.
  intros E. destruct (first_above_min _ _ _ (sort_cats_sorted cs) E) as (Hin & Hlt & _).
  split; [apply sort_cats_in; exact Hin | exact Hlt].
Qed.

(** X1.  On a valid table the call returns exactly when every element
    carries, at position 1, a number strictly below some threshold. *)
Theorem category_mapping_returns_iff
    (cs : list category) (tbl iterable : value) (items : list value) :
  valid_table tbl cs ->
  iter_value iterable = Ok items ->
  ((exists out, category_mapping iterable tbl = Ok out) <->
   Forall (fun i => exists v c, has_price i v /\ In c cs /\ (v < snd c)%Q) items).
Proof.
  intros V I. rewrite (category_mapping_valid _ _ _ V).
  unfold lookup_all. rewrite I. cbn [bind]. destruct V as (N & _ & _).
  split.
  - intros (out & E). apply mapM_ok_Forall2 in E. clear I.
    induction E as [| i o items out Hi _ IH]; [constructor |].
    constructor; [| exact IH].
    destruct (categorize_ok_inv cs i o N Hi) as (v & c & P & F & _).
    destruct (first_above_in_range cs v c F) as (Hin & Hlt).
    exists v, c. repeat split; assumption.
  - intros F. clear I.
    induction F as [| i items (v & c & P & Hc & Hv) _ (out & E)].
    + exists []. reflexivity.
    + destruct (categorize_below cs i v c P Hc Hv) as (lab & El & _).
      exists ((i, lab) :: out). cbn [mapM]. rewrite El. cbn [bind].
      rewrite E. reflexivity.
Qed.

Lemma category_mapping_returns_iff_witness :
  (exists out,
      category_mapping (VTuple [elem "a" 2.5; elem "b" 0.5]) (shapeB beers) = Ok out) <->
  Forall (fun i => exists v c, has_price i v /\ In c beers /\ (v < snd c)%Q)
    [elem "a" 2.5; elem "b" 0.5].
Proof.
  apply (category_mapping_returns_iff beers (shapeB beers)
           (VTuple [elem "a" 2.5; elem "b" 0.5])).
  - split; [discriminate |]. split; [repeat constructor | right; reflexivity].
  - reflexivity.
Defined.





(** X4.  Each element is labelled on its own: for any table, the call on a
    concatenation returns exactly when the calls on the two parts return,
    and its output is then the two outputs one after the other. *)
Theorem category_mapping_app (cats : value) (xs ys : list value)
    (out : list (value * value)) :
  category_mapping (VList (xs ++ ys)) cats = Ok out <->
  exists a b, out = a ++ b /\
              category_mapping (VList xs) cats = Ok a /\
              category_mapping (VList ys) cats = Ok b.
Proof.
  unfold category_mapping.
  destruct (first_block cats) as [cats1 | e]; cbn [bind];
    [| split; [discriminate | intros (a & b & _ & H & _); discriminate H]].
  destruct (sort_block cats1) as [cats2 | e]; cbn [bind];
    [| split; [discriminate | intros (a & b & _ & H & _); discriminate H]].
  unfold map_items.
  destruct (unpack_rows cats2) as [rows | e]; cbn [bind iter_value];
    [| split; [discriminate | intros (a & b & _ & H & _); discriminate H]].
  rewrite mapM_app.
  destruct (mapM (categorize (fst rows) (snd rows)) xs) as [a | e]; cbn [bind];
    [| split; [discriminate | intros (a & b & _ & H & _); discriminate H]].
  destruct (mapM (categorize (fst rows) (snd rows)) ys) as [b | e]; cbn [bind];
    [| split; [discriminate | intros (a' & b' & _ & _ & H); discriminate H]].
  split.
  - intros H. injection H as <-. exists a, b. repeat split.
  - intros (a' & b' & -> & Ha & Hb). injection Ha as <-. injection Hb as <-.
    reflexivity.
Qed.

(** ** Transposing and the dispatch between the shapes *)

Lemma index_items_head (x : value) (l : list value) : index_items (x :: l) 0 = Ok x.
Proof. exact (index_items_nat (x :: l) 0). Qed.

Lemma zip_items_combine (ls : list value) (ts : list Q) :
  zip_items [ls; map VNum ts] = map (fun c => [fst c; VNum (snd c)]) (combine ls ts).
Proof.
  unfold zip_items. revert ts.
  induction ls as [| l ls IH]; intros ts; [reflexivity |].
  destruct ts as [| t ts]; [reflexivity |].
  simpl. f_equal. apply IH.
Qed.

Lemma zip_items_pair_length (a b : list value) :
  List.length (zip_items [a; b]) = Nat.min (List.length a) (List.length b).
Proof.
  unfold zip_items. rewrite length_map, length_combine, length_map. reflexivity.
Qed.

Lemma unpack_arity (z : list (list value)) :
  List.length z <> 2 ->
  match map VList z with
  | [VList cat0; VList cat1] => Ok (cat0, cat1)
  | _ => Err ValueError
  end = Err ValueError.
Proof.
  intros H. destruct z as [| a [| b [| c z]]]; try reflexivity.
  simpl in H. congruence.
Qed.

(** X5.  Transposing twice gives the table back: Shape A with categories is
    turned into rows and the rows into Shape A again.  Without categories it
    is not so: the two empty rows are lost. *)
Theorem transpose_round_trip (cs : list category) :
  cs <> [] ->
  (t <- transpose (shapeA cs) ;; transpose t) = Ok (shapeA cs) /\
  (t <- transpose (VList (map (row false) cs)) ;; transpose t)
    = Ok (VList (map (row false) cs)) /\
  (t <- transpose (shapeA []) ;; transpose t) = Ok (VList []).
Proof.
  intros N. split; [| split; [| reflexivity]].
  - rewrite transpose_shapeA. cbn [bind]. apply transpose_rows. exact N.
  - rewrite transpose_rows by exact N. cbn [bind]. apply transpose_shapeA.
Qed.

Lemma transpose_round_trip_witness :
  (t <- transpose (shapeA beers) ;; transpose t) = Ok (shapeA beers) /\
  (t <- transpose (VList (map (row false) beers)) ;; transpose t)
    = Ok (VList (map (row false) beers)) /\
  (t <- transpose (shapeA []) ;; transpose t) = Ok (VList []).
Proof. apply (transpose_round_trip beers). discriminate. Defined.

(** X6.  A Shape A table whose two rows differ in length raises nothing:
    [zip] pairs the labels and the thresholds up to the shorter row, and the
    call is the call on these pairs.  The last label must not be a number. *)
Theorem shapeA_rows_truncated
    (iterable : value) (ls : list value) (lab : value) (ts : list Q) (t : Q) :
  is_num lab = false ->
  category_mapping iterable
    (VList [VList (ls ++ [lab]); VList (map VNum (ts ++ [t]))])
  = category_mapping iterable (shapeB (combine (ls ++ [lab]) (ts ++ [t]))).
Proof.
  intros H.
  assert (N : combine (ls ++ [lab]) (ts ++ [t]) <> [])
    by (destruct ls, ts; discriminate).
  rewrite category_mapping_shapeB by exact N.
  unfold category_mapping.
  assert (F : first_block (VList [VList (ls ++ [lab]); VList (map VNum (ts ++ [t]))])
              = Ok (VList [VList (ls ++ [lab]); VList (map VNum (ts ++ [t]))]))
    by reflexivity.
  rewrite F. cbn [bind].
  assert (S : sort_block (VList [VList (ls ++ [lab]); VList (map VNum (ts ++ [t]))])
              = Ok (VList (map (row false)
                             (sort_cats (combine (ls ++ [lab]) (ts ++ [t])))))).
  { unfold sort_block.
    assert (E : sorted_by_last
                  (VList [VList (ls ++ [lab]); VList (map VNum (ts ++ [t]))])
                = Err TypeError).
    { unfold sorted_by_last. cbn [iter_value bind mapM getitem].
      rewrite map_app. cbn [map]. rewrite !index_items_last.
      cbn [bind sort_keyed insert_by_key fst].
      rewrite value_lt_num_opaque by exact H. reflexivity. }
    rewrite E. cbn [try_except_TypeError].
    unfold transpose. cbn [iter_value bind mapM].
    rewrite zip_items_combine, map_map.
    apply (sorted_by_last_rows false). }
  rewrite S. cbn [bind].
  apply map_items_rows. apply sort_cats_nonempty. exact N.
Qed.

Lemma shapeA_rows_truncated_witness :
  category_mapping (VList [elem "a" 0.5])
    (VList [VList ([VStr "x"; VStr "y"] ++ [VStr "z"]); VList (map VNum ([] ++ [1%Q]))])
  = category_mapping (VList [elem "a" 0.5])
      (shapeB (combine ([VStr "x"; VStr "y"] ++ [VStr "z"]) ([] ++ [1%Q]))).
Proof.
  apply (shapeA_rows_truncated (VList [elem "a" 0.5]) [VStr "x"; VStr "y"] (VStr "z") [] 1%Q).
  reflexivity.
Defined.

(** X7.  The rows of Shape B may be lists instead of tuples, with any
    labels: they are not taken for the two rows of Shape A, not even when
    there are two of them. *)
Theorem shapeB_list_rows (iterable : value) (cs : list category) :
  category_mapping iterable (VList (map (row false) cs))
  = category_mapping iterable (shapeB cs).
Proof.
  destruct cs as [| c cs]; [reflexivity |].
  rewrite category_mapping_shapeB by discriminate.
  unfold category_mapping.
  assert (F : first_block (VList (map (row false) (c :: cs)))
              = Ok (VList (map (row false) (c :: cs)))) by reflexivity.
  rewrite F. cbn [bind]. rewrite sort_block_rows. cbn [bind].
  apply map_items_rows. apply sort_cats_nonempty. discriminate.
Qed.

(** X8.  A table that is a number, or whose first entry is a number, raises
    [TypeError]: line 64 fails on it, and so does the transposition of
    line 66. *)
Theorem number_table_raises_TypeError (iterable : value) (q : Q) (rest : list value) :
  category_mapping iterable (VNum q) = Err TypeError /\
  category_mapping iterable (VList (VNum q :: rest)) = Err TypeError /\
  category_mapping iterable (VTuple (VNum q :: rest)) = Err TypeError.
Proof.
  split; [reflexivity |].
  split; unfold category_mapping, first_block, shape_probe; cbn [getitem];
    rewrite index_items_head; reflexivity.
Qed.

(** X9.  Shape A is recognised by its last label alone: when it is not a
    number, the call is the call on Shape B of the same categories, whatever
    the other labels are. *)
Theorem shapeA_dispatch_by_last_label
    (iterable : value) (cs : list category) (c : category) :
  is_num (fst c) = false ->
  category_mapping iterable (shapeA (cs ++ [c]))
  = category_mapping iterable (shapeB (cs ++ [c])).
Proof.
  intros H.
  assert (N : cs ++ [c] <> []) by (destruct cs; discriminate).
  rewrite category_mapping_shapeB by exact N.
  unfold category_mapping. rewrite first_block_shapeA. cbn [bind].
  rewrite sort_block_shapeA by exact H. cbn [bind].
  apply map_items_rows. apply sort_cats_nonempty. exact N.
Qed.

Lemma shapeA_dispatch_by_last_label_witness :
  category_mapping (VList [elem "x" 1.5]) (shapeA ([(VNum 10, 1%Q)] ++ [(VStr "b", 2%Q)]))
  = category_mapping (VList [elem "x" 1.5]) (shapeB ([(VNum 10, 1%Q)] ++ [(VStr "b", 2%Q)])).
Proof.
  apply (shapeA_dispatch_by_last_label (VList [elem "x" 1.5])
           [(VNum 10, 1%Q)] (VStr "b", 2%Q)).
  reflexivity.
Defined.

(** X10.  When the last label of a Shape A table is a number the sort
    succeeds on the two rows, and unless there are exactly two categories
    line 74 cannot unpack the transposed rows: the call raises
    [ValueError]. *)
Theorem shapeA_numeric_last_label_raises
    (iterable : value) (cs : list category) (q t : Q) :
  List.length (cs ++ [(VNum q, t)]) <> 2 ->
  category_mapping iterable (shapeA (cs ++ [(VNum q, t)])) = Err ValueError.
Proof.
  intros L. unfold category_mapping. rewrite first_block_shapeA. cbn [bind].
  set (all := cs ++ [(VNum q, t)]) in *.
  assert (S : sort_block (shapeA all) = Ok (VList [VList (labels all); VList (thresholds all)])
              \/ sort_block (shapeA all) = Ok (VList [VList (thresholds all); VList (labels all)])).
  { unfold sort_block, sorted_by_last, shapeA, labels, thresholds, all.
    cbn [iter_value bind mapM getitem].
    rewrite !map_app. cbn [map]. rewrite !index_items_last.
    cbn [bind sort_keyed insert_by_key fst snd value_lt].
    destruct (Qltb t q); [right | left]; reflexivity. }
  assert (U : forall a b, Nat.min (List.length a) (List.length b) <> 2 ->
                          map_items iterable (VList [VList a; VList b]) = Err ValueError).
  { intros a b H. unfold map_items, unpack_rows, transpose.
    cbn [iter_value bind mapM].
    rewrite unpack_arity by (rewrite zip_items_pair_length; exact H).
    reflexivity. }
  assert (M : Nat.min (List.length (labels all)) (List.length (thresholds all)) <> 2
              /\ Nat.min (List.length (thresholds all)) (List.length (labels all)) <> 2).
  { unfold labels, thresholds. rewrite !length_map, Nat.min_id. split; exact L. }
  destruct S as [-> | ->]; cbn [bind]; apply U; apply M.
Qed.

Lemma shapeA_numeric_last_label_raises_witness :
  category_mapping (VList [elem "x" 1.5]) (shapeA ([] ++ [(VNum 10, 1%Q)])) = Err ValueError.
Proof.
  apply (shapeA_numeric_last_label_raises (VList [elem "x" 1.5]) [] 10%Q 1%Q).
  discriminate.
Defined.

(** ** Rows that are not pairs *)

Lemma insert_by_key_numeric (kx : value * value) (l : list (value * value)) :
  is_num (fst kx) = true ->
  Forall (fun ky => is_num (fst ky) = true) l ->
  exists l', insert_by_key kx l = Ok l' /\ Permutation (kx :: l) l'.
Proof.
  intros Hk F. induction F as [| ky l Hy _ IH].
  - exists [kx]. split; reflexivity.
  - cbn [insert_by_key].
    destruct kx as [[q | | |] x]; try discriminate Hk.
    destruct ky as [[p | | |] y]; try discriminate Hy.
    cbn [fst value_lt bind]. destruct (Qltb p q).
    + destruct IH as (r & -> & P). cbn [bind].
      exists ((VNum p, y) :: r). split; [reflexivity |].
      rewrite perm_swap. apply perm_skip. exact P.
    + eexists. split; reflexivity.
Qed.

Lemma sort_keyed_numeric (l : list (value * value)) :
  Forall (fun ky => is_num (fst ky) = true) l ->
  exists l', sort_keyed l = Ok l' /\ Permutation l l'.
Proof.
  induction 1 as [| kx l Hk F (s & Es & Ps)].
  - exists []. split; reflexivity.
  - cbn [sort_keyed]. rewrite Es. cbn [bind].
    destruct (insert_by_key_numeric kx s Hk (Permutation_Forall Ps F)) as (l' & E & P).
    exists l'. split; [exact E |].
    rewrite <- P. apply perm_skip. exact Ps.
Qed.

Lemma zip_items_length (k : nat) (rows : list (list value)) :
  rows <> [] -> Forall (fun r => List.length r = k) rows ->
  List.length (zip_items rows) = k.
Proof.
  intros N F. induction F as [| r rs Hr F IH]; [congruence |].
  destruct rs as [| r' rs].
  - cbn [zip_items]. rewrite length_map. exact Hr.
  - change (zip_items (r :: r' :: rs))
      with (map (fun p : value * list value => fst p :: snd p)
              (combine r (zip_items (r' :: rs)))).
    rewrite length_map, length_combine, IH by discriminate.
    rewrite Hr. apply Nat.min_id.
Qed.

(** X11.  Rows that all have [m + 1] items, the last one a number, are
    sorted without complaint; when [m + 1] is not 2, line 74 cannot unpack
    their transposition and the call raises [ValueError]. *)
Theorem rows_of_other_arity_raise
    (iterable : value) (rs : list (list value * Q)) (m : nat) :
  rs <> [] -> m <> 1 ->
  Forall (fun r => List.length (fst r) = m) rs ->
  category_mapping iterable
    (VList (map (fun r => VTuple (fst r ++ [VNum (snd r)])) rs))
  = Err ValueError.
Proof.
  intros N M F.
  set (rowv := fun r : list value * Q => VTuple (fst r ++ [VNum (snd r)])).
  unfold category_mapping.
  assert (B : first_block (VList (map rowv rs)) = Ok (VList (map rowv rs))).
  { destruct rs as [| r rs']; [congruence |].
    unfold first_block, shape_probe. cbn [getitem map].
    rewrite index_items_head. reflexivity. }
  rewrite B. cbn [bind].
  set (keyed := map (fun r => (VNum (snd r), rowv r)) rs).
  assert (K : mapM (fun x => k <- getitem x (-1) ;; Ok (k, x)) (map rowv rs) = Ok keyed).
  { apply mapM_map_ok. intros r _. unfold rowv. cbn [getitem].
    rewrite index_items_last. reflexivity. }
  destruct (sort_keyed_numeric keyed) as (s & Es & Ps).
  { apply Forall_forall. intros x Hx. apply in_map_iff in Hx.
    destruct Hx as (r & <- & _). reflexivity. }
  assert (S : sort_block (VList (map rowv rs)) = Ok (VList (map snd s))).
  { unfold sort_block, sorted_by_last. cbn [iter_value bind].
    rewrite K. cbn [bind]. rewrite Es. reflexivity. }
  rewrite S. cbn [bind].
  set (g := fun kx : value * value =>
              match snd kx with
              | VTuple l => l
              | _ => []
              end).
  assert (G : forall x, In x s -> exists r, In r rs /\ x = (VNum (snd r), rowv r)).
  { intros x Hx. apply (Permutation_in _ (Permutation_sym Ps)) in Hx.
    apply in_map_iff in Hx. destruct Hx as (r & <- & Hr).
    exists r. split; [exact Hr | reflexivity]. }
  assert (I : mapM iter_value (map snd s) = Ok (map g s)).
  { apply mapM_map_ok. intros x Hx. destruct (G x Hx) as (r & _ & ->). reflexivity. }
  assert (Z : List.length (zip_items (map g s)) = m + 1).
  { apply zip_items_length.
    - intros E. apply map_eq_nil in E. subst s.
      apply Permutation_sym, Permutation_nil in Ps.
      apply map_eq_nil in Ps. exact (N Ps).
    - apply Forall_forall. intros z Hz. apply in_map_iff in Hz.
      destruct Hz as (x & <- & Hx). destruct (G x Hx) as (r & Hr & ->).
      unfold g, rowv. cbn [snd]. rewrite length_app. cbn [List.length].
      rewrite Forall_forall in F. rewrite (F r Hr). reflexivity. }
  unfold map_items, unpack_rows, transpose. cbn [iter_value bind].
  rewrite I. cbn [bind iter_value].
  rewrite unpack_arity by lia. reflexivity.
Qed.

Lemma rows_of_other_arity_raise_witness :
  category_mapping (VList [elem "a" 0.5])
    (VList (map (fun r => VTuple (fst r ++ [VNum (snd r)]))
              [([VStr "x"; VStr "note"], 2%Q); ([VStr "y"; VStr "note"], 1%Q)]))
  = Err ValueError.
Proof.
  apply (rows_of_other_arity_raise (VList [elem "a" 0.5])
           [([VStr "x"; VStr "note"], 2%Q); ([VStr "y"; VStr "note"], 1%Q)] 2).
  - discriminate.
  - discriminate.
  - repeat constructor.
Defined.

(** ** The search and the order *)

Lemma count_prefix {A : Type} (p : A -> bool) (d : A) (s : list A) (k : nat) :
  k <= List.length s ->
  (forall j, j < k -> p (nth j s d) = true) ->
  (forall j, k <= j < List.length s -> p (nth j s d) = false) ->
  List.length (filter p s) = k.
Proof.
  revert k. induction s as [| a s IH]; intros k Hk Hlo Hhi.
  - simpl in Hk. simpl. lia.
  - destruct k as [| k]; cbn [filter].
    + assert (H0 : p (nth 0 (a :: s) d) = false) by (apply Hhi; simpl; lia).
      simpl in H0. rewrite H0. apply (IH 0); [lia | intros j Hj; lia |].
      intros j Hj. apply (Hhi (S j)). simpl. lia.
    + assert (H0 : p (nth 0 (a :: s) d) = true) by (apply Hlo; lia).
      simpl in H0. rewrite H0. cbn [List.length]. f_equal. apply IH.
      * simpl in Hk. lia.
      * intros j Hj. apply (Hlo (S j)). lia.
      * intros j Hj. apply (Hhi (S j)). simpl. lia.
Qed.

(** X12.  On thresholds in ascending order the index that line 76 takes
    from [bisect] is the number of thresholds that are at most the value:
    thresholds equal to the value are counted, so the value falls behind
    them. *)
Theorem bisect_counts_thresholds_le (s : list category) (v : Q) :
  StronglySorted cat_le s ->
  bisect (thresholds s) (VNum v)
  = Ok (List.length (filter (fun c => negb (Qltb v (snd c))) s)).
Proof.
  intros S. unfold bisect, thresholds. rewrite length_map. fold (thresholds s).
  destruct (bisect_loop_spec s v S (List.length s) 0 (List.length s))
    as (k & Ek & Hk & Hlo & Hhi); try lia.
  rewrite Ek. f_equal. symmetry.
  apply count_prefix with (d := (VNum 0, 0%Q)); [exact Hk | |].
  - intros j Hj. apply negb_true_iff. apply Qltb_false. apply Hlo. exact Hj.
  - intros j Hj. apply negb_false_iff. apply Qltb_true. apply Hhi. exact Hj.
Qed.

Lemma bisect_counts_thresholds_le_witness :
  bisect (thresholds beers) (VNum 2)
  = Ok (List.length (filter (fun c => negb (Qltb 2 (snd c))) beers)).
Proof.
  apply (bisect_counts_thresholds_le beers 2%Q).
  unfold beers, cat_le.
  repeat constructor; cbn [snd]; discriminate.
Defined.

Lemma sort_cats_ascending (l : list category) :
  StronglySorted cat_le l -> sort_cats l = l.
Proof.
  induction 1 as [| c l S IH F]; [reflexivity |].
  cbn [sort_cats]. rewrite IH.
  destruct l as [| d l]; [reflexivity |].
  cbn [insert_cat].
  assert (L : Qltb (snd d) (snd c) = false).
  { apply Qltb_false. rewrite Forall_forall in F. apply F. left. reflexivity. }
  rewrite L. reflexivity.
Qed.

(** X13.  Rows that are already in ascending order of their thresholds are
    left by lines 68-72 exactly as they are, categories of one threshold
    included. *)
Theorem sort_block_keeps_ascending_rows (b : bool) (cs : list category) :
  StronglySorted cat_le cs ->
  sort_block (VList (map (row b) cs)) = Ok (VList (map (row b) cs)).
Proof.
  intros S. rewrite sort_block_rows, (sort_cats_ascending cs S). reflexivity.
Qed.

Lemma sort_block_keeps_ascending_rows_witness :
  sort_block (VList (map (row true) tied)) = Ok (VList (map (row true) tied)).
Proof.
  apply (sort_block_keeps_ascending_rows true tied).
  unfold tied, cat_le.
  repeat constructor; cbn [snd]; discriminate.
Defined.

Lemma Forall2_in_r {A B : Type} (R : A -> B -> Prop) (l : list A) (m : list B) (y : B) :
  Forall2 R l m -> In y m -> exists x, In x l /\ R x y.
Proof.
  induction 1 as [| a b l m Hab _ IH]; intros H; [destruct H |].
  destruct H as [<- | H].
  - exists a. split; [left; reflexivity | exact Hab].
  - destruct (IH H) as (x & Hx & Hr). exists x. split; [right; exact Hx | exact Hr].
Qed.

Lemma lookup_all_ok_inv (iterable : value) (cs : list category)
    (out : list (value * value)) (i lab : value) :
  cs <> [] ->
  lookup_all iterable (sort_cats cs) = Ok out -> In (i, lab) out ->
  exists v c, has_price i v /\ first_above v (sort_cats cs) = Some c /\ lab = fst c.
Proof.
  intros N E Hin. unfold lookup_all in E.
  destruct (iter_value iterable) as [items | e]; [| discriminate E]. cbn [bind] in E.
  apply mapM_ok_Forall2 in E.
  destruct (Forall2_in_r _ _ _ _ E Hin) as (j & _ & Hj).
  destruct (categorize_ok_inv cs j (i, lab) N Hj) as (v & c & P & F & Eo).
  injection Eo as <- ->. exists v, c. repeat split; assumption.
Qed.

(** X14.  The labelling is monotone: of two labelled elements, the one with
    the smaller number is given a category whose threshold is not above the
    threshold of the other's category. *)
Theorem labelling_is_monotone
    (cs : list category) (tbl iterable : value) (out : list (value * value))
    (i j li lj : value) (v w : Q) :
  valid_table tbl cs ->
  category_mapping iterable tbl = Ok out ->
  In (i, li) out -> In (j, lj) out ->
  has_price i v -> has_price j w -> (v <= w)%Q ->
  exists ti tj, In (li, ti) cs /\ In (lj, tj) cs /\
                (v < ti)%Q /\ (w < tj)%Q /\ (ti <= tj)%Q.
Proof.
  intros V E Hi Hj Pi Pj L.
  rewrite (category_mapping_valid _ _ _ V) in E. destruct V as (N & _ & _).
  destruct (lookup_all_ok_inv _ _ _ _ _ N E Hi) as (v' & ci & Pi' & Fi & ->).
  destruct (lookup_all_ok_inv _ _ _ _ _ N E Hj) as (w' & cj & Pj' & Fj & ->).
  rewrite <- (has_price_unique _ _ _ Pi Pi') in Fi.
  rewrite <- (has_price_unique _ _ _ Pj Pj') in Fj.
  destruct (first_above_min _ _ _ (sort_cats_sorted cs) Fi) as (Ii & Li & Mi).
  destruct (first_above_min _ _ _ (sort_cats_sorted cs) Fj) as (Ij & Lj & _).
  exists (snd ci), (snd cj).
  rewrite <- !surjective_pairing.
  split; [apply sort_cats_in; exact Ii |].
  split; [apply sort_cats_in; exact Ij |].
  split; [exact Li |]. split; [exact Lj |].
  apply Mi; [exact Ij |]. apply Qle_lt_trans with w; assumption.
Qed.

Lemma labelling_is_monotone_witness :
  exists ti tj, In (VStr "barato", ti) beers /\ In (VStr "caro", tj) beers /\
                (0.5 < ti)%Q /\ (2.5 < tj)%Q /\ (ti <= tj)%Q.
Proof.
  apply (labelling_is_monotone beers (shapeA beers)
           (VList [elem "a" 2.5; elem "b" 0.5])
           [(elem "a" 2.5, VStr "caro"); (elem "b" 0.5, VStr "barato")]
           (elem "b" 0.5) (elem "a" 2.5)).
  - split; [discriminate |]. split; [repeat constructor | left; reflexivity].
  - reflexivity.
  - right. left. reflexivity.
  - left. reflexivity.
  - reflexivity.
  - reflexivity.
  - discriminate.
Defined.
